(** * vite-plugin-hono-file-route-generator: the route manifest generator

    A shallow embedding of [honoFileRouteGenerator] and [cleanupPath].
    JavaScript strings are modelled as [string] (a sequence of bytes, read
    as the UTF-8 encoding of the text): every separator the plugin looks for
    ([.], [/], [\], the pattern [/./]) is ASCII, so splitting, joining and
    replacing commute with the encoding. *)

From Stdlib Require Import Ascii.
From stdpp Require Import gmap strings list fin_maps pretty.

(** ** The JavaScript string and array primitives the plugin calls *)

Module Js.

(** [s.split(sep)] for a one-character separator: never the empty array;
    [''.split('.')] is [['']]. *)
Fixpoint split (sep : ascii) (s : string) : list string :=
  match s with
  | EmptyString => [EmptyString]
  | String c s' =>
      if Ascii.eqb c sep then EmptyString :: split sep s'
      else match split sep s' with
           | seg :: segs => String c seg :: segs
           | [] => [String c EmptyString]
           end
  end.

Global Arguments split sep%_char s%_stdpp.

(** [xs.join(sep)]. *)
Fixpoint join (sep : string) (xs : list string) : string :=
  match xs with
  | [] => EmptyString
  | [x] => x
  | x :: rest => x +:+ sep +:+ join sep rest
  end.

(** [xs.pop()]: the removed last element ([undefined] on the empty array)
    and the array as it is left. *)
Definition pop {A} (xs : list A) : option A * list A :=
  (last xs, removelast xs).

(** [s.startsWith(p)]. *)
Fixpoint startsWith (p s : string) : bool :=
  match p, s with
  | EmptyString, _ => true
  | String a p', String b s' => Ascii.eqb a b && startsWith p' s'
  | String _ _, EmptyString => false
  end.

(** [s.replaceAll(pat, rep)] for a non-empty [pat]: matches are taken left
    to right and do not overlap; the replacement text is not scanned again.
    [skip] counts the characters of the current match still to be dropped. *)
Fixpoint replaceAll_from (pat rep : string) (skip : nat) (s : string) : string :=
  match s with
  | EmptyString => EmptyString
  | String c s' =>
      match skip with
      | S k => replaceAll_from pat rep k s'
      | O =>
          if startsWith pat s
          then rep +:+ replaceAll_from pat rep (String.length pat - 1) s'
          else String c (replaceAll_from pat rep 0 s')
      end
  end.

Definition replaceAll (pat rep s : string) : string :=
  replaceAll_from pat rep 0 s.

(** [c.toLowerCase()] on one byte: the letters [A]..[Z] move to [a]..[z].
    Bytes of multi-byte characters are left alone; the plugin only compares
    the lowered extension with ['js'] and ['ts'], and no character other
    than [J], [S], [T] lowers to [j], [s], [t]. *)
Definition lowerChar (c : ascii) : ascii :=
  let n := nat_of_ascii c in
  if (65 <=? n)%nat && (n <=? 90)%nat then ascii_of_nat (n + 32) else c.

Fixpoint toLowerCase (s : string) : string :=
  match s with
  | EmptyString => EmptyString
  | String c s' => String (lowerChar c) (toLowerCase s')
  end.

(** [xs.map((x, i) => f(x, i))], the index counted from [i]. *)
Fixpoint mapi_from {A B} (f : A → nat → B) (i : nat) (xs : list A) : list B :=
  match xs with
  | [] => []
  | x :: rest => f x i :: mapi_from f (S i) rest
  end.

Definition mapi {A B} (f : A → nat → B) (xs : list A) : list B :=
  mapi_from f 0 xs.

(** A template literal's rendering of an array index: decimal digits. *)
Definition numberToString (n : nat) : string := pretty n.

(** [a || b] on optional strings: the empty string is falsy. *)
Definition or_else (a : option string) (b : string) : string :=
  match a with
  | Some (String c s) => String c s
  | Some EmptyString | None => b
  end.

End Js.

(** ** [cleanupPath] *)

Definition cleanupPath (path : string) : string :=
  Js.replaceAll "\" "/" (Js.replaceAll "/./" "/" path).

(** ** Data model *)

(** The [quotes] option: a double or a single quote character. *)
Inductive Quote := DoubleQuote | SingleQuote.

Definition doubleQuoteChar : string := String "034" EmptyString.
Definition newline : string := String "010" EmptyString.

Definition quoteText (q : Quote) : string :=
  match q with
  | DoubleQuote => doubleQuoteChar
  | SingleQuote => "'"
  end.

(** [Options]. [generate] lists the object's own properties in the order
    [Object.keys] enumerates them, each key with its value. *)
Record Options := {
  generate : list (string * string);
  autoformat : option bool;
  autoformatCommand : option string;
  quotes : option Quote;
}.

(** A [Dirent] as [fs.readdir(_, { withFileTypes: true })] yields it. *)
Record Dirent := {
  dirent_name : string;
  dirent_parentPath : string;
  dirent_isDirectory : bool;
}.

(** The object literal the listing is mapped to. *)
Record ScannedFile := {
  name : string;
  path : string;
  directory : bool;
}.

(** An error object, told apart by its message. *)
Definition Error := string.

(** ** The host *)

(** What the file system and the process launcher answer. *)
Record World := {
  readdir : string → Error + list Dirent;
  writeFault : string → option Error;
  execFault : string → option Error;
}.

(** What the plugin did, in the order it happened. [WriteFile] stands for a
    write that completed. *)
Inductive Event :=
  | Readdir (folder : string)
  | WriteFile (file data : string)
  | Exec (command : string)
  | CallbackThrow (err : Error)
  | UnhandledRejection (err : Error).

(** [files] holds, under the path a write was given, the bytes of the last
    write completed there; it is not the disk: what a launched command or a
    failed write does to a file, and which paths name one file, are not in
    it. *)
Record Host := {
  files : gmap string string;
  trace : list Event;
}.

(** How a promise settles, and how a callback completes. *)
Inductive Settled (A : Type) :=
  | Fulfilled (a : A)
  | RejectedWith (e : Error).
Arguments Fulfilled {A} a.
Arguments RejectedWith {A} e.

Inductive Completion :=
  | Returns
  | Throws (e : Error).

(** ** The manifest text (the synchronous part of the callback) *)

Section Manifest.

(** Node's [path.relative(from, to)], a function of the host platform and
    of the working directory; it is not part of the plugin. *)
Variable relative : string → string → string.

(** [destination.split('/')], [pop()], [join('/')]. *)
Definition destinationPathOf (destination : string) : string :=
  let dPathArray := Js.split "/" destination in
  let '(_, dPathArray) := Js.pop dPathArray in
  Js.join "/" dPathArray.

(** The [.map(...).filter(...)] chain over the listing. *)
Definition scannedFiles (dirents : list Dirent) : list ScannedFile :=
  filter (λ paths, directory paths = false)
    ((λ folders, {| name := dirent_name folders;
                    path := cleanupPath (dirent_parentPath folders);
                    directory := dirent_isDirectory folders |}) <$> dirents).

(** The body of [files.forEach]: [listOfImports] before and after one file. *)
Definition importStep (destinationPath : string)
    (listOfImports : list string) (file : ScannedFile) : list string :=
  let '(popped, filenameNoExtension) := Js.pop (Js.split "." (name file)) in
  let fileExtension := Js.toLowerCase <$> popped in
  match fileExtension with
  | None | Some EmptyString => listOfImports
  | Some fileExtension =>
      if bool_decide (fileExtension ≠ "js") && bool_decide (fileExtension ≠ "ts")
      then listOfImports
      else
        let normalizedPath := cleanupPath (relative destinationPath (path file)) in
        listOfImports ++
          ["./" +:+ normalizedPath +:+ "/" +:+ Js.join "." filenameNoExtension]
  end.

Definition collectImports (destinationPath : string) (files : list ScannedFile)
    : list string :=
  foldl (importStep destinationPath) [] files.

Definition bindingName (ordinal : nat) : string :=
  "route" +:+ Js.numberToString ordinal.

(** [listOfImports.map((importation, i) => `import route${i + 1} from ...`)]. *)
Definition importLines (quotes : option Quote) (listOfImports : list string)
    : list string :=
  Js.mapi (λ importation i,
    "import " +:+ bindingName (i + 1) +:+ " from "
      +:+ Js.or_else (quoteText <$> quotes) "'" +:+ importation
      +:+ Js.or_else (quoteText <$> quotes) "'" +:+ ";") listOfImports.

Definition exportLine (listOfImports : list string) : string :=
  "export default ["
    +:+ Js.join ", " (Js.mapi (λ _ j, bindingName (j + 1)) listOfImports)
    +:+ "];".

(** [importsListFormatted] after the three [push]es. *)
Definition manifestLines (quotes : option Quote) (listOfImports : list string)
    : list string :=
  ((importLines quotes listOfImports ++ [""]) ++ [exportLine listOfImports]) ++ [""].

Definition generatedJsTsFile (quotes : option Quote) (listOfImports : list string)
    : string :=
  Js.join newline (manifestLines quotes listOfImports).

(** What one mapping writes, given its listing. *)
Definition manifestOf (quotes : option Quote) (destination : string)
    (dirents : list Dirent) : string :=
  generatedJsTsFile quotes
    (collectImports (destinationPathOf destination) (scannedFiles dirents)).

(** *** The asynchronous part: listing, writing, formatting *)

(** Every await of the callback is a step of a state-and-rejection monad
    over the host. *)
Definition Async (A : Type) : Type := Host → Settled A * Host.

#[local] Instance async_ret : MRet Async := λ A a h, (Fulfilled a, h).
#[local] Instance async_bind : MBind Async := λ A B k m h,
  match m h with
  | (Fulfilled a, h') => k a h'
  | (RejectedWith e, h') => (RejectedWith e, h')
  end.

Definition record (ev : Event) (h : Host) : Host :=
  {| files := files h; trace := trace h ++ [ev] |}.

Variable world : World.

(** [await fs.readdir(folder, { recursive: true, withFileTypes: true })]. *)
Definition fs_readdir (folder : string) : Async (list Dirent) := λ h,
  match readdir world folder with
  | inr dirents => (Fulfilled dirents, record (Readdir folder) h)
  | inl e => (RejectedWith e, record (Readdir folder) h)
  end.

(** [await fs.writeFile(file, data, { encoding: 'utf-8' })]: on success the
    file holds exactly [data]. *)
Definition fs_writeFile (file data : string) : Async unit := λ h,
  match writeFault world file with
  | None =>
      (Fulfilled (), {| files := <[file := data]> (files h);
                        trace := trace h ++ [WriteFile file data] |})
  | Some e => (RejectedWith e, h)
  end.

(** [exec(command, callback)]: the launcher is called, and the callback
    later receives the failure of the command, if any; a throw of the
    callback is a fault of the process, not a rejection of the caller. *)
Definition exec (command : string) (callback : option Error → Completion)
    : Async unit := λ h,
  let h := record (Exec command) h in
  match callback (execFault world command) with
  | Returns => (Fulfilled (), h)
  | Throws e => (Fulfilled (), record (CallbackThrow e) h)
  end.

(** [(err) => { if (!err) return; throw err; }]. *)
Definition formatterCallback (err : option Error) : Completion :=
  match err with
  | None => Returns
  | Some err => Throws err
  end.

Variable options : Options.

(** The body of the [async (folder) => ...] callback, [destination0] being
    [generate[folder]]. *)
Definition processMapping (folder destination0 : string) : Async unit :=
  let destination := cleanupPath destination0 in
  let destinationPath := destinationPathOf destination in
  dirents ← fs_readdir folder;
  let files := scannedFiles dirents in
  let listOfImports := collectImports destinationPath files in
  let generatedJsTsFile := generatedJsTsFile (quotes options) listOfImports in
  _ ← fs_writeFile destination generatedJsTsFile;
  match autoformat options with
  | None | Some false => mret ()
  | Some true =>
      exec (Js.or_else (autoformatCommand options)
              ("prettier " +:+ doubleQuoteChar +:+ destination
                 +:+ doubleQuoteChar +:+ " --write"))
           formatterCallback
  end.

(** One iteration of [Object.keys(generate).forEach]: the promise of the
    callback is dropped, so a rejection is left unhandled. *)
Definition runCallback (h : Host) (entry : string * string) : Host :=
  match processMapping entry.1 entry.2 h with
  | (Fulfilled _, h') => h'
  | (RejectedWith e, h') => record (UnhandledRejection e) h'
  end.

(** [handleHotUpdate()] in the one run in which every callback has come to
    its end before the next one starts.  [EventLoop] below has every run. *)
Definition handleHotUpdate (h : Host) : Host :=
  foldl runCallback h (generate options).

End Manifest.

(** A stand-in for [path.relative] on already normalised POSIX paths where
    [to] lies under [from]; used to run the model on examples. *)
Fixpoint dropPrefix (from to : string) : string :=
  match from, to with
  | EmptyString, String "/" rest => rest
  | EmptyString, _ => to
  | String a from', String b to' => if Ascii.eqb a b then dropPrefix from' to' else to
  | String _ _, EmptyString => EmptyString
  end.

(** ** The vocabulary of the specification

    Names are described there by their last dot: what follows it is the
    extension, what precedes it the base name.  These definitions work on the
    text directly; they are related to [split], [pop] and [join] below. *)

Fixpoint contains (sep : ascii) (s : string) : bool :=
  match s with
  | EmptyString => false
  | String c s' => Ascii.eqb c sep || contains sep s'
  end.

(** The text after the last [sep]; the whole text when there is none. *)
Fixpoint afterLast (sep : ascii) (s : string) : string :=
  match s with
  | EmptyString => EmptyString
  | String c s' =>
      if contains sep s' then afterLast sep s'
      else if Ascii.eqb c sep then s' else String c s'
  end.

(** The text before the last [sep]; empty when there is none. *)
Fixpoint beforeLast (sep : ascii) (s : string) : string :=
  match s with
  | EmptyString => EmptyString
  | String c s' =>
      if contains sep s' then String c (beforeLast sep s') else EmptyString
  end.

Arguments contains sep%_char s%_stdpp.
Arguments afterLast sep%_char s%_stdpp.
Arguments beforeLast sep%_char s%_stdpp.

(** The spellings of an extension that, lower-cased, are [js] or [ts]. *)
Definition recognisedExtensions : list string :=
  ["js"; "jS"; "Js"; "JS"; "ts"; "tS"; "Ts"; "TS"].

Definition recognised (fileName : string) : bool :=
  bool_decide (afterLast "." fileName ∈ recognisedExtensions).

(** The import specifier of a scanned file, for the files that have one. *)
Definition specifierOf (relative : string → string → string)
    (destinationDir : string) (file : ScannedFile) : option string :=
  if recognised (name file)
  then Some ("./" +:+ cleanupPath (relative destinationDir (path file))
               +:+ "/" +:+ beforeLast "." (name file))
  else None.

(** A listed entry survives the filter when it is not a directory and its
    extension is one of the recognised spellings. *)
Definition survives (entry : Dirent) : Prop :=
  dirent_isDirectory entry = false ∧
  afterLast "." (dirent_name entry) ∈ recognisedExtensions.

#[local] Instance survives_dec entry : Decision (survives entry).
Proof. unfold survives. apply _. Defined.

(** The scanned file of a listed entry. *)
Definition scannedFile (entry : Dirent) : ScannedFile :=
  {| name := dirent_name entry;
     path := cleanupPath (dirent_parentPath entry);
     directory := dirent_isDirectory entry |}.

(** The quote character the [quotes] option stands for. *)
Definition quoteOf (quotes : option Quote) : string :=
  match quotes with
  | Some DoubleQuote => doubleQuoteChar
  | Some SingleQuote | None => "'"
  end.

(** [s.includes(pat)]: does [pat] occur in [s]? *)
Fixpoint includes (pat s : string) : bool :=
  match s with
  | EmptyString => Js.startsWith pat EmptyString
  | String _ s' => Js.startsWith pat s || includes pat s'
  end.

(** The command the formatter is launched with. *)
Definition formatterCommand (options : Options) (destination : string) : string :=
  match autoformatCommand options with
  | Some (String c command) => String c command
  | Some EmptyString | None =>
      "prettier " +:+ doubleQuoteChar +:+ destination +:+ doubleQuoteChar +:+ " --write"
  end.

(** The file a mapping writes and what it writes there, when the listing
    and the write both succeed. *)
Definition writtenBy (relative : string → string → string) (world : World)
    (options : Options) (entry : string * string) : option (string * string) :=
  match readdir world entry.1 with
  | inl _ => None
  | inr dirents =>
      let destination := cleanupPath entry.2 in
      match writeFault world destination with
      | Some _ => None
      | None =>
          Some (destination,
                manifestOf relative (quotes options) destination dirents)
      end
  end.



(** The events of one mapping's callback, read off the answers of the host. *)
Definition callbackEvents (relative : string → string → string) (world : World)
    (options : Options) (entry : string * string) : list Event :=
  let destination := cleanupPath entry.2 in
  Readdir entry.1 ::
  match readdir world entry.1 with
  | inl e => [UnhandledRejection e]
  | inr dirents =>
      match writeFault world destination with
      | Some e => [UnhandledRejection e]
      | None =>
          WriteFile destination
            (manifestOf relative (quotes options) destination dirents) ::
          match autoformat options with
          | Some true =>
              let command := formatterCommand options destination in
              Exec command ::
              match execFault world command with
              | Some err => [CallbackThrow err]
              | None => []
              end
          | _ => []
          end
      end
  end.

(** The folders listed and the writes completed in a run of events. *)
Definition listedFolders (events : list Event) : list string :=
  omap (λ ev, match ev with Readdir folder => Some folder | _ => None end) events.

Definition completedWrites (events : list Event) : list (string * string) :=
  omap (λ ev, match ev with
              | WriteFile file data => Some (file, data)
              | _ => None
              end) events.

(** The normalised destination files of a configuration. *)
Definition destinations (options : Options) : list string :=
  (λ entry, cleanupPath entry.2) <$> generate options.

(** ** The event loop

    [Object.keys(generate).forEach(async ...)] does not wait for a callback:
    each one runs up to its first [await], where its listing has been asked
    for, and [handleHotUpdate] returns.  A callback goes on when the
    operation it awaits settles, and runs without interruption up to its next
    [await] or to its end.  The operations of different callbacks settle in
    any order. *)

Module EventLoop.

(** A suspended callback: the operation it awaits and the variables it
    still uses. *)
Inductive Task :=
  | AwaitReaddir (folder destination destinationPath : string)
  | AwaitWriteFile (destination generatedJsTsFile : string)
  | AwaitExec (command : string)
  | Finished.

(** The callbacks in key order, and the events so far. *)
Record Loop := {
  pending : list Task;
  log : list Event;
}.

Section Loop.

Variable relative : string → string → string.
Variable world : World.
Variable options : Options.

(** A callback from its start to its first [await]. *)
Definition start (entry : string * string) : Task :=
  let destination := cleanupPath entry.2 in
  let destinationPath := destinationPathOf destination in
  AwaitReaddir entry.1 destination destinationPath.

(** [handleHotUpdate()] as it returns: every listing asked for, in key
    order, and every callback suspended. *)
Definition handleHotUpdate : Loop :=
  {| pending := start <$> generate options;
     log := (λ entry, Readdir entry.1) <$> generate options |}.

(** The awaited operation settles: the callback goes on to its next
    [await] or to its end, with the events of that stretch. *)
Definition resume (task : Task) : Task * list Event :=
  match task with
  | AwaitReaddir folder destination destinationPath =>
      match readdir world folder with
      | inl e => (Finished, [UnhandledRejection e])
      | inr dirents =>
          let files := scannedFiles dirents in
          let listOfImports := collectImports relative destinationPath files in
          (AwaitWriteFile destination
             (generatedJsTsFile (quotes options) listOfImports), [])
      end
  | AwaitWriteFile destination generatedJsTsFile =>
      match writeFault world destination with
      | Some e => (Finished, [UnhandledRejection e])
      | None =>
          match autoformat options with
          | None | Some false =>
              (Finished, [WriteFile destination generatedJsTsFile])
          | Some true =>
              let command :=
                Js.or_else (autoformatCommand options)
                  ("prettier " +:+ doubleQuoteChar +:+ destination
                     +:+ doubleQuoteChar +:+ " --write") in
              (AwaitExec command,
               [WriteFile destination generatedJsTsFile; Exec command])
          end
      end
  | AwaitExec command =>
      match formatterCallback (execFault world command) with
      | Returns => (Finished, [])
      | Throws e => (Finished, [CallbackThrow e])
      end
  | Finished => (Finished, [])
  end.

(** The operation awaited by the [i]-th callback settles next. *)
Definition settle (l : Loop) (i : nat) : Loop :=
  match pending l !! i with
  | Some task =>
      {| pending := <[i := (resume task).1]> (pending l);
         log := log l ++ (resume task).2 |}
  | None => l
  end.

(** A run: the callbacks whose operations settle, in the order they do. *)
Definition run (schedule : list nat) : Loop :=
  foldl settle handleHotUpdate schedule.

(** Nothing is awaited any more. *)
Definition quiescent (l : Loop) : Prop :=
  Forall (λ task, task = Finished) (pending l).

(** The writes a callback has yet to complete. *)
Definition futureWrites (task : Task) : list (string * string) :=
  match task with
  | AwaitReaddir folder destination destinationPath =>
      match readdir world folder, writeFault world destination with
      | inr dirents, None =>
          [(destination,
            generatedJsTsFile (quotes options)
              (collectImports relative destinationPath (scannedFiles dirents)))]
      | _, _ => []
      end
  | AwaitWriteFile destination generatedJsTsFile =>
      match writeFault world destination with
      | None => [(destination, generatedJsTsFile)]
      | Some _ => []
      end
  | AwaitExec _ | Finished => []
  end.

End Loop.

End EventLoop.

(** What the completed writes of a run leave in the file a path names: the
    bytes of the last of them to that file.  [fileAt] tells which file a
    path names, so that two spellings of one file count as one. *)
Definition leftIn (fileAt : string → string) (file : string)
    (events : list Event) : option string :=
  last (omap (λ write : string * string,
                if decide (fileAt write.1 = fileAt file) then Some write.2 else None)
          (completedWrites events)).

(** ** Running the model *)

Example cleanupPath_ex1 : cleanupPath "./routes/./api.ts" = "./routes/api.ts".
Proof. reflexivity. Qed.

Example cleanupPath_ex2 : cleanupPath "routes\hi" = "routes/hi".
Proof. reflexivity. Qed.

Example split_ex : Js.split "." "data.backup.ts" = ["data"; "backup"; "ts"].
Proof. reflexivity. Qed.

Example number_ex : Js.numberToString 12 = "12".
Proof. reflexivity. Qed.

Example readme_manifest :
  manifestOf dropPrefix None "./routes/api.ts"
    [ {| dirent_name := "a"; dirent_parentPath := "./routes"; dirent_isDirectory := true |};
      {| dirent_name := "index.ts"; dirent_parentPath := "./routes/a"; dirent_isDirectory := false |};
      {| dirent_name := "b"; dirent_parentPath := "./routes"; dirent_isDirectory := true |};
      {| dirent_name := "index.ts"; dirent_parentPath := "./routes/b"; dirent_isDirectory := false |} ]
  = "import route1 from './a/index';" +:+ newline
    +:+ "import route2 from './b/index';" +:+ newline
    +:+ newline
    +:+ "export default [route1, route2];" +:+ newline.
Proof. vm_compute. reflexivity. Qed.

(** ** Strings: [split], [pop] and [join] against the last separator *)

Section StringFacts.

Implicit Types (s t : string) (c sep : ascii).

Lemma append_empty_l s : "" +:+ s = s.
Proof. reflexivity. Qed.

Lemma append_cons c s t : String c s +:+ t = String c (s +:+ t).
Proof. reflexivity. Qed.

Lemma append_empty_r s : s +:+ "" = s.
Proof. induction s as [|c s IH]; [done | by rewrite append_cons, IH]. Qed.

Lemma append_assoc s t u : (s +:+ t) +:+ u = s +:+ t +:+ u.
Proof. induction s as [|c s IH]; [done | by rewrite !append_cons, IH]. Qed.

Lemma split_not_nil sep s : Js.split sep s ≠ [].
Proof.
  destruct s as [|c s]; simpl; [done|].
  destruct (Ascii.eqb c sep); [done|].
  by destruct (Js.split sep s).
Qed.

Lemma split_without sep s : contains sep s = false → Js.split sep s = [s].
Proof.
  induction s as [|c s IH]; simpl; [done|].
  intros [Hc Hs]%orb_false_elim. rewrite Hc, (IH Hs). done.
Qed.

Lemma split_append sep s t :
  Js.split sep (s +:+ String sep t) = Js.split sep s ++ Js.split sep t.
Proof.
  induction s as [|c s IH]; rewrite ?append_cons, ?append_empty_l; simpl.
  - by rewrite Ascii.eqb_refl.
  - rewrite IH. destruct (Ascii.eqb c sep); [done|].
    pose proof (split_not_nil sep s).
    by destruct (Js.split sep s).
Qed.

Lemma join_split sep s : Js.join (String sep "") (Js.split sep s) = s.
Proof.
  induction s as [|c s IH]; simpl; [done|].
  pose proof (split_not_nil sep s) as Hne.
  destruct (Ascii.eqb_spec c sep) as [->|Hc].
  - destruct (Js.split sep s) eqn:E; [done|]. simpl in *.
    by rewrite append_empty_l, append_cons, append_empty_l, IH.
  - destruct (Js.split sep s) as [|seg [|seg' segs]] eqn:E; [done|..];
      simpl in *; by rewrite <- IH.
Qed.

Lemma afterLast_without sep s : contains sep s = false → afterLast sep s = s.
Proof.
  destruct s as [|c s]; simpl; [done|].
  intros [Hc Hs]%orb_false_elim. by rewrite Hs, Hc.
Qed.

Lemma beforeLast_without sep s : contains sep s = false → beforeLast sep s = "".
Proof.
  destruct s as [|c s]; simpl; [done|].
  intros [Hc Hs]%orb_false_elim. by rewrite Hs.
Qed.

Lemma contains_afterLast sep s : contains sep (afterLast sep s) = false.
Proof.
  induction s as [|c s IH]; simpl; [done|].
  destruct (contains sep s) eqn:Hs; [done|].
  destruct (Ascii.eqb c sep) eqn:Hc; simpl; [done|]. by rewrite Hc, Hs.
Qed.

(** A text with a separator is its two sides around the last one. *)
Lemma last_separator sep s :
  contains sep s = true →
  s = beforeLast sep s +:+ String sep (afterLast sep s).
Proof.
  induction s as [|c s IH]; simpl; [done|].
  destruct (contains sep s) eqn:Hs.
  - intros _. by rewrite append_cons, <- IH.
  - rewrite orb_false_r. intros ->%Ascii.eqb_eq. by rewrite Ascii.eqb_refl.
Qed.

Lemma contains_append sep s t :
  contains sep (s +:+ t) = contains sep s || contains sep t.
Proof.
  induction s as [|c s IH]; [done|].
  rewrite append_cons. simpl. by rewrite IH, orb_assoc.
Qed.

(** The two sides are determined by where the last separator stands. *)
Lemma afterLast_append sep s t :
  contains sep t = false → afterLast sep (s +:+ String sep t) = t.
Proof.
  intros Ht. induction s as [|c s IH]; rewrite ?append_cons, ?append_empty_l; simpl.
  - by rewrite Ht, Ascii.eqb_refl.
  - rewrite contains_append. simpl. rewrite Ascii.eqb_refl, orb_true_r. done.
Qed.

Lemma beforeLast_append sep s t :
  contains sep t = false → beforeLast sep (s +:+ String sep t) = s.
Proof.
  intros Ht. induction s as [|c s IH]; rewrite ?append_cons, ?append_empty_l; simpl.
  - by rewrite Ht.
  - rewrite contains_append. simpl. rewrite Ascii.eqb_refl, orb_true_r.
    by rewrite IH.
Qed.

(** [pop] after [split] hands out the text after the last separator and
    leaves the segments of the text before it. *)
Lemma pop_split sep s :
  (Js.pop (Js.split sep s)).1 = Some (afterLast sep s) ∧
  Js.join (String sep "") (Js.pop (Js.split sep s)).2 = beforeLast sep s.
Proof.
  unfold Js.pop; simpl.
  destruct (contains sep s) eqn:Hs.
  - assert (Js.split sep s
            = Js.split sep (beforeLast sep s) ++ [afterLast sep s]) as ->.
    { rewrite (last_separator sep s Hs) at 1.
      by rewrite split_append, (split_without _ _ (contains_afterLast sep s)). }
    by rewrite last_snoc, removelast_last, join_split.
  - rewrite split_without, afterLast_without, beforeLast_without by done. done.
Qed.

End StringFacts.

(** ** The extension filter *)

Ltac each_ascii c :=
  destruct c as [[] [] [] [] [] [] [] []].

Lemma lowerChar_j c : Js.lowerChar c = "j"%char → c = "j"%char ∨ c = "J"%char.
Proof. each_ascii c; vm_compute; intros H; try discriminate H; auto. Qed.

Lemma lowerChar_s c : Js.lowerChar c = "s"%char → c = "s"%char ∨ c = "S"%char.
Proof. each_ascii c; vm_compute; intros H; try discriminate H; auto. Qed.

Lemma lowerChar_t c : Js.lowerChar c = "t"%char → c = "t"%char ∨ c = "T"%char.
Proof. each_ascii c; vm_compute; intros H; try discriminate H; auto. Qed.

Lemma toLowerCase_js ext :
  Js.toLowerCase ext = "js" ↔ ext ∈ ["js"; "jS"; "Js"; "JS"].
Proof.
  split.
  - destruct ext as [|a [|b [|c ext]]]; simpl; intros H; try discriminate H.
    injection H as Ha%lowerChar_j Hb%lowerChar_s.
    destruct Ha as [-> | ->], Hb as [-> | ->]; set_solver.
  - rewrite !elem_of_cons, elem_of_nil. intros [->|[->|[->|[->|[]]]]]; reflexivity.
Qed.

Lemma toLowerCase_ts ext :
  Js.toLowerCase ext = "ts" ↔ ext ∈ ["ts"; "tS"; "Ts"; "TS"].
Proof.
  split.
  - destruct ext as [|a [|b [|c ext]]]; simpl; intros H; try discriminate H.
    injection H as Ha%lowerChar_t Hb%lowerChar_s.
    destruct Ha as [-> | ->], Hb as [-> | ->]; set_solver.
  - rewrite !elem_of_cons, elem_of_nil. intros [->|[->|[->|[->|[]]]]]; reflexivity.
Qed.

(** Lower-casing and comparing with [js] and [ts] accepts exactly the eight
    spellings. *)
Lemma recognised_toLowerCase ext :
  ext ∈ recognisedExtensions ↔
  Js.toLowerCase ext = "js" ∨ Js.toLowerCase ext = "ts".
Proof.
  rewrite toLowerCase_js, toLowerCase_ts. unfold recognisedExtensions.
  change ["js"; "jS"; "Js"; "JS"; "ts"; "tS"; "Ts"; "TS"]
    with (["js"; "jS"; "Js"; "JS"] ++ ["ts"; "tS"; "Ts"; "TS"]).
  apply elem_of_app.
Qed.

Section Collect.

Variable relative : string → string → string.
Variable destinationPath : string.

(** One turn of the loop pushes the specifier of the file, if it has one. *)
Lemma importStep_specifierOf listOfImports file :
  importStep relative destinationPath listOfImports file
  = listOfImports ++ option_list (specifierOf relative destinationPath file).
Proof.
  unfold importStep, specifierOf, recognised.
  destruct (pop_split "." (name file)) as [Hpop Hrest].
  destruct (Js.pop (Js.split "." (name file))) as [popped filenameNoExtension].
  simpl in Hpop, Hrest. subst popped. rewrite Hrest. simpl.
  pose proof (recognised_toLowerCase (afterLast "." (name file))) as Hrec.
  destruct (Js.toLowerCase (afterLast "." (name file))) as [|c ext] eqn:Hlow.
  - rewrite bool_decide_eq_false_2, app_nil_r; [done|].
    rewrite Hrec. by intros [|].
  - set (lowered := String c ext) in *.
    destruct (decide (lowered = "js")) as [Hjs|Hjs];
      [|destruct (decide (lowered = "ts")) as [Hts|Hts]].
    + rewrite (bool_decide_eq_false_2 (lowered ≠ "js")) by auto. simpl.
      rewrite bool_decide_eq_true_2 by (apply Hrec; auto). done.
    + rewrite (bool_decide_eq_false_2 (lowered ≠ "ts")) by auto.
      rewrite andb_false_r.
      rewrite bool_decide_eq_true_2 by (apply Hrec; auto). done.
    + rewrite !bool_decide_eq_true_2 by done. simpl.
      rewrite bool_decide_eq_false_2, app_nil_r; [done|].
      rewrite Hrec. by intros [|].
Qed.

Lemma foldl_importStep files listOfImports :
  foldl (importStep relative destinationPath) listOfImports files
  = listOfImports ++ omap (specifierOf relative destinationPath) files.
Proof.
  revert listOfImports.
  induction files as [|file files IH]; intros acc; simpl.
  - by rewrite app_nil_r.
  - rewrite IH, importStep_specifierOf, <- app_assoc.
    by destruct (specifierOf relative destinationPath file).
Qed.

(** The loop with [push] is a filtering map that keeps the order of the
    listing. *)
Lemma collectImports_omap files :
  collectImports relative destinationPath files
  = omap (specifierOf relative destinationPath) files.
Proof. apply foldl_importStep. Qed.


End Collect.

(** ** The listing filter *)

Lemma scannedFiles_cons entry dirents :
  scannedFiles (entry :: dirents)
  = (if dirent_isDirectory entry then [] else [scannedFile entry])
      ++ scannedFiles dirents.
Proof.
  unfold scannedFiles, scannedFile. rewrite fmap_cons, filter_cons. simpl.
  destruct (dirent_isDirectory entry); case_decide; done.
Qed.

Lemma scannedFiles_app pre post :
  scannedFiles (pre ++ post) = scannedFiles pre ++ scannedFiles post.
Proof. unfold scannedFiles. by rewrite fmap_app, filter_app. Qed.

Lemma collectImports_app relative destinationPath files1 files2 :
  collectImports relative destinationPath (files1 ++ files2)
  = collectImports relative destinationPath files1
      ++ collectImports relative destinationPath files2.
Proof. by rewrite !collectImports_omap, omap_app. Qed.

Lemma recognised_survives entry :
  dirent_isDirectory entry = false →
  recognised (dirent_name entry) = true ↔ survives entry.
Proof.
  intros Hdir. unfold recognised, survives.
  rewrite bool_decide_eq_true. split; [by split | by intros [_ ?]].
Qed.

(** The imports of a one-entry listing. *)
Lemma collectImports_entry relative destinationPath entry :
  collectImports relative destinationPath (scannedFiles [entry])
  = if decide (survives entry)
    then ["./" +:+ cleanupPath (relative destinationPath
                                  (cleanupPath (dirent_parentPath entry)))
            +:+ "/" +:+ beforeLast "." (dirent_name entry)]
    else [].
Proof.
  rewrite scannedFiles_cons, collectImports_omap, app_nil_r.
  destruct (dirent_isDirectory entry) eqn:Hdir.
  - rewrite decide_False; [done|]. unfold survives. rewrite Hdir. by intros [? _].
  - simpl. unfold specifierOf. simpl.
    pose proof (recognised_survives entry Hdir) as Hrec.
    destruct (recognised (dirent_name entry)).
    + rewrite decide_True by (by apply Hrec). done.
    + rewrite decide_False; [done|]. rewrite <- Hrec. done.
Qed.

Lemma length_collectImports_listing relative destinationPath dirents :
  length (collectImports relative destinationPath (scannedFiles dirents))
  = length (filter survives dirents).
Proof.
  induction dirents as [|entry dirents IH]; [done|].
  change (entry :: dirents) with ([entry] ++ dirents).
  rewrite scannedFiles_app, collectImports_app, collectImports_entry.
  rewrite filter_app, !length_app, IH. f_equal.
  rewrite filter_cons, filter_nil. by destruct (decide (survives entry)).
Qed.

(** ** The lines of the manifest *)

Lemma length_mapi_from {A B} (f : A → nat → B) i xs :
  length (Js.mapi_from f i xs) = length xs.
Proof. revert i. induction xs as [|x xs IH]; intros i; simpl; [done|]. by rewrite IH. Qed.

(** A callback that reads the index only as [i + 1] sees [1], [2], ... *)
Lemma mapi_from_ordinal {A B} (g : nat → A → B) i xs :
  Js.mapi_from (λ x j, g (j + 1) x) i xs
  = zip_with g (seq (i + 1) (length xs)) xs.
Proof.
  revert i. induction xs as [|x xs IH]; intros i; simpl; [done|].
  rewrite IH. by replace (S i + 1) with (S (i + 1)) by lia.
Qed.

Lemma zip_with_const_r {A B C} (g : A → C) (xs : list A) (ys : list B) :
  length xs = length ys → zip_with (λ x _, g x) xs ys = g <$> xs.
Proof.
  revert ys. induction xs as [|x xs IH]; intros [|y ys] Hlen; simplify_eq/=; [done|].
  by rewrite IH.
Qed.

Lemma or_else_quote quotes : Js.or_else (quoteText <$> quotes) "'" = quoteOf quotes.
Proof. by destruct quotes as [[]|]. Qed.

Lemma importLines_ordinals quotes listOfImports :
  importLines quotes listOfImports
  = zip_with (λ k specifier,
      "import route" +:+ pretty k +:+ " from " +:+ quoteOf quotes
        +:+ specifier +:+ quoteOf quotes +:+ ";")
      (seq 1 (length listOfImports)) listOfImports.
Proof.
  unfold importLines, Js.mapi. rewrite or_else_quote.
  apply (mapi_from_ordinal (λ k specifier,
    "import route" +:+ pretty k +:+ " from " +:+ quoteOf quotes
      +:+ specifier +:+ quoteOf quotes +:+ ";") 0).
Qed.

Lemma exportLine_ordinals listOfImports :
  exportLine listOfImports
  = "export default ["
      +:+ Js.join ", " ((λ k, "route" +:+ pretty k) <$> seq 1 (length listOfImports))
      +:+ "];".
Proof.
  unfold exportLine, Js.mapi, bindingName, Js.numberToString. do 2 f_equal.
  rewrite (mapi_from_ordinal (λ k _, "route" +:+ pretty k) 0). f_equal.
  apply zip_with_const_r. by rewrite length_seq.
Qed.

Lemma bindingName_inj : Inj (=) (=) (λ k : nat, "route" +:+ pretty k).
Proof. intros j k H. by apply (inj (String.app "route")), (inj pretty) in H. Qed.

Lemma join_cons sep (x y : string) (rest : list string) :
  Js.join sep (x :: y :: rest) = x +:+ sep +:+ Js.join sep (y :: rest).
Proof. reflexivity. Qed.

(** Joining with a newline ends every line but the last with one. *)
Lemma join_newline_app (lines : list string) (lastLine : string) (rest : list string) :
  Js.join newline (lines ++ lastLine :: rest)
  = foldr (λ line text, line +:+ newline +:+ text)
      (Js.join newline (lastLine :: rest)) lines.
Proof.
  induction lines as [|line lines IH]; [done|].
  destruct lines as [|line' lines]; simpl in *; by rewrite <- ?IH.
Qed.

(** ** The generated manifest *)

Lemma filter_zip_with_all {A B C} (P : C → Prop) `{∀ z, Decision (P z)}
    (f : A → B → C) (xs : list A) (ys : list B) :
  (∀ x y, P (f x y)) → filter P (zip_with f xs ys) = zip_with f xs ys.
Proof.
  intros Hall. revert ys.
  induction xs as [|x xs IH]; intros [|y ys]; cbn [zip_with]; try done.
  rewrite filter_cons, decide_True by done. by rewrite IH.
Qed.

(** C1. The import statements of a manifest are the lines of the form
    [import routek from Q<specifier>Q;]: they are exactly the lines of the
    manifest that start with [import ], the manifest text is these lines,
    each ended by a newline, followed by the blank line and the export
    statement, and there are as many of them as the listing has entries
    that are not directories and whose text after the last dot is, up to
    letter case, [js] or [ts]. *)
Theorem import_statement_count
    (relative : string → string → string) (quotes : option Quote)
    (destinationPath : string) (dirents : list Dirent) :
  let listOfImports :=
    collectImports relative destinationPath (scannedFiles dirents) in
  let Q := match quotes with
           | Some DoubleQuote => doubleQuoteChar
           | Some SingleQuote => "'"
           | None => "'"
           end in
  let statements :=
    zip_with (λ k specifier,
      "import route" +:+ pretty k +:+ " from " +:+ Q +:+ specifier +:+ Q +:+ ";")
      (seq 1 (length listOfImports)) listOfImports in
  generatedJsTsFile quotes listOfImports
  = foldr (λ line text, line +:+ newline +:+ text)
      (newline +:+ exportLine listOfImports +:+ newline) statements
  ∧ filter (λ line, Js.startsWith "import " line = true)
      (manifestLines quotes listOfImports)
    = statements
  ∧ length statements
    = length (filter
        (λ entry, dirent_isDirectory entry = false ∧
                  afterLast "." (dirent_name entry)
                    ∈ ["js"; "jS"; "Js"; "JS"; "ts"; "tS"; "Ts"; "TS"]) dirents).
Proof.
  intros listOfImports Q statements.
  assert (importLines quotes listOfImports = statements) as Hlines.
  { rewrite importLines_ordinals. unfold statements, Q.
    by destruct quotes as [[]|]. }
  split_and!.
  - unfold generatedJsTsFile, manifestLines.
    rewrite <- !app_assoc. cbn [app].
    rewrite join_newline_app, Hlines.
    by rewrite !join_cons, append_empty_l, append_empty_r.
  - unfold manifestLines. rewrite Hlines, !filter_app.
    unfold statements at 1. rewrite filter_zip_with_all by done.
    by rewrite <- !app_assoc, app_nil_r.
  - rewrite <- Hlines. unfold importLines, Js.mapi. rewrite length_mapi_from.
    apply length_collectImports_listing.
Qed.

(** Extensions that merely start with [js] or [ts], or name another module
    format, give no import. *)
Example other_extensions_skipped relative destinationPath :
  collectImports relative destinationPath (scannedFiles
    [ {| dirent_name := "view.jsx"; dirent_parentPath := "r"; dirent_isDirectory := false |};
      {| dirent_name := "view.tsx"; dirent_parentPath := "r"; dirent_isDirectory := false |};
      {| dirent_name := "lib.mjs"; dirent_parentPath := "r"; dirent_isDirectory := false |};
      {| dirent_name := "README"; dirent_parentPath := "r"; dirent_isDirectory := false |};
      {| dirent_name := "dir.ts"; dirent_parentPath := "r"; dirent_isDirectory := true |} ])
  = [].
Proof. reflexivity. Qed.


(** C3. The manifest text is one line [import routek from Q<specifier>Q;]
    per entry, Q being the configured quote character and a single quote
    when none is configured, each followed by a newline; then an empty line;
    then [export default [route1, ..., routeN];] and a final newline. *)
Theorem manifest_text (quotes : option Quote) (listOfImports : list string) :
  let Q := match quotes with
           | Some DoubleQuote => doubleQuoteChar
           | Some SingleQuote => "'"
           | None => "'"
           end in
  let N := length listOfImports in
  generatedJsTsFile quotes listOfImports
  = foldr (λ line text, line +:+ newline +:+ text)
      (newline
         +:+ "export default ["
         +:+ Js.join ", " ((λ k, "route" +:+ pretty k) <$> seq 1 N)
         +:+ "];" +:+ newline)
      (zip_with (λ k specifier,
         "import route" +:+ pretty k +:+ " from " +:+ Q +:+ specifier +:+ Q +:+ ";")
         (seq 1 N) listOfImports).
Proof.
  intros Q N. unfold generatedJsTsFile, manifestLines.
  rewrite <- !app_assoc. simpl app.
  rewrite join_newline_app, importLines_ordinals, exportLine_ordinals.
  rewrite !join_cons, append_empty_l, append_empty_r, !append_assoc.
  by destruct quotes as [[]|].
Qed.

(** C8. When no entry of the listing survives the filter, the manifest has
    no import line: it is an empty line, [export default [];] and a final
    newline. *)
Theorem empty_manifest
    (relative : string → string → string) (quotes : option Quote)
    (destination : string) (dirents : list Dirent) :
  filter survives dirents = [] →
  importLines quotes
    (collectImports relative (destinationPathOf destination) (scannedFiles dirents)) = []
  ∧ manifestLines quotes
      (collectImports relative (destinationPathOf destination) (scannedFiles dirents))
    = [""; "export default [];"; ""]
  ∧ manifestOf relative quotes destination dirents
    = newline +:+ "export default [];" +:+ newline.
Proof.
  intros Hnone. unfold manifestOf.
  pose proof (length_collectImports_listing relative
                (destinationPathOf destination) dirents) as Hlen.
  rewrite Hnone in Hlen.
  destruct (collectImports _ _ _); [|done]. done.
Qed.

Lemma empty_manifest_witness :
  manifestOf dropPrefix None "./routes/api.ts"
    [ {| dirent_name := "README"; dirent_parentPath := "./routes"; dirent_isDirectory := false |};
      {| dirent_name := "old.ts"; dirent_parentPath := "./routes"; dirent_isDirectory := true |} ]
  = newline +:+ "export default [];" +:+ newline.
Proof.
  apply (empty_manifest dropPrefix None "./routes/api.ts"). reflexivity.
Defined.

(** ** Import specifiers *)

Lemma destinationPathOf_beforeLast destination :
  destinationPathOf destination = beforeLast "/" destination.
Proof.
  unfold destinationPathOf.
  destruct (pop_split "/" destination) as [_ Hrest].
  by destruct (Js.pop (Js.split "/" destination)).
Qed.

(** C4. A file that passes the filter is imported as [./], then the
    normalised path from the directory of the destination file to the
    normalised directory of the file, then [/], then the name of the file up
    to its last dot; if the name is [base.ext] with no dot in [ext], that is
    [base], whatever dots and letter case [base] has. *)
Theorem specifier_of_filtered_file
    (relative : string → string → string) (destination0 : string)
    (pre post : list Dirent) (entry : Dirent) :
  dirent_isDirectory entry = false →
  afterLast "." (dirent_name entry)
    ∈ ["js"; "jS"; "Js"; "JS"; "ts"; "tS"; "Ts"; "TS"] →
  let destination := cleanupPath destination0 in
  let destinationDir := beforeLast "/" destination in
  let imports dirents :=
    collectImports relative (destinationPathOf destination) (scannedFiles dirents) in
  imports (pre ++ entry :: post)
  = imports pre
      ++ ["./" +:+ cleanupPath (relative destinationDir
                                  (cleanupPath (dirent_parentPath entry)))
            +:+ "/" +:+ beforeLast "." (dirent_name entry)]
      ++ imports post
  ∧ ∀ base ext,
      dirent_name entry = base +:+ "." +:+ ext → contains "." ext = false →
      beforeLast "." (dirent_name entry) = base.
Proof.
  intros Hdir Hext destination destinationDir imports. split.
  - unfold imports.
    change (entry :: post) with ([entry] ++ post).
    rewrite !scannedFiles_app, !collectImports_app, collectImports_entry.
    rewrite decide_True by done.
    by rewrite destinationPathOf_beforeLast.
  - intros base ext -> Hfree. by apply beforeLast_append.
Qed.

Lemma specifier_of_filtered_file_witness :
  collectImports dropPrefix (destinationPathOf (cleanupPath "./routes/./api.ts"))
    (scannedFiles
      [ {| dirent_name := "data.backup.ts"; dirent_parentPath := "./routes\v1";
           dirent_isDirectory := false |} ])
  = ["./v1/data.backup"]
  ∧ beforeLast "." "data.backup.ts" = "data.backup".
Proof.
  destruct (specifier_of_filtered_file dropPrefix "./routes/./api.ts" [] []
    {| dirent_name := "data.backup.ts"; dirent_parentPath := "./routes\v1";
       dirent_isDirectory := false |}) as [Himports Hbase].
  - reflexivity.
  - simpl. rewrite !elem_of_cons. auto 10.
  - split; [exact Himports|]. by apply (Hbase "data.backup" "ts").
Defined.

(** C10. When the normalised directory of a filtered file is the directory
    of the destination file, the path between them is empty and the
    specifier is [./] followed at once by [/] and the name up to its last
    dot: it starts with [.//]. *)
Theorem same_directory_specifier
    (relative : string → string → string) (destination : string)
    (pre post : list Dirent) (entry : Dirent) :
  (∀ dir, relative dir dir = "") →
  dirent_isDirectory entry = false →
  afterLast "." (dirent_name entry)
    ∈ ["js"; "jS"; "Js"; "JS"; "ts"; "tS"; "Ts"; "TS"] →
  cleanupPath (dirent_parentPath entry) = destinationPathOf destination →
  let imports dirents :=
    collectImports relative (destinationPathOf destination) (scannedFiles dirents) in
  imports (pre ++ entry :: post)
  = imports pre ++ [".//" +:+ beforeLast "." (dirent_name entry)] ++ imports post.
Proof.
  intros Hsame Hdir Hext Heq imports. unfold imports.
  change (entry :: post) with ([entry] ++ post).
  rewrite !scannedFiles_app, !collectImports_app, collectImports_entry.
  rewrite decide_True by done.
  by rewrite Heq, Hsame.
Qed.

Lemma dropPrefix_same dir : dropPrefix dir dir = "".
Proof.
  induction dir as [|c dir IH]; simpl; [done|]. by rewrite Ascii.eqb_refl.
Qed.

Lemma same_directory_specifier_witness :
  collectImports dropPrefix (destinationPathOf "./routes/api.ts")
    (scannedFiles
      [ {| dirent_name := "index.ts"; dirent_parentPath := "./routes";
           dirent_isDirectory := false |} ])
  = [".//index"].
Proof.
  apply (same_directory_specifier dropPrefix "./routes/api.ts" [] []
    {| dirent_name := "index.ts"; dirent_parentPath := "./routes";
       dirent_isDirectory := false |}).
  - apply dropPrefix_same.
  - reflexivity.
  - simpl. rewrite !elem_of_cons. auto 10.
  - reflexivity.
Defined.

(** X2. A name without a dot is skipped unless the whole name is one of
    the recognised spellings. *)
Lemma extensionless_skipped relative destinationPath entry :
  contains "." (dirent_name entry) = false →
  dirent_name entry ∉ recognisedExtensions →
  collectImports relative destinationPath (scannedFiles [entry]) = [].
Proof.
  intros Hfree Hname. rewrite collectImports_entry, decide_False; [done|].
  unfold survives. rewrite afterLast_without by done. by intros [_ ?].
Qed.

Lemma extensionless_skipped_witness :
  collectImports dropPrefix "./routes" (scannedFiles
    [ {| dirent_name := "README"; dirent_parentPath := "./routes";
         dirent_isDirectory := false |} ]) = [].
Proof.
  apply (extensionless_skipped dropPrefix "./routes"); [reflexivity|].
  unfold recognisedExtensions. simpl. intros H.
  repeat (apply elem_of_cons in H as [H|H]; [discriminate H|]).
  by apply elem_of_nil in H.
Defined.

(** C5, as the code has it. A file named [ts], a name without a dot, is
    not skipped: the whole name is taken for the extension, and the file is
    imported under the empty base name. *)
Theorem extensionless_ts_is_imported
    (relative : string → string → string) (destinationPath dir : string) :
  contains "." "ts" = false
  ∧ collectImports relative destinationPath (scannedFiles
      [ {| dirent_name := "ts"; dirent_parentPath := dir; dirent_isDirectory := false |} ])
    = ["./" +:+ cleanupPath (relative destinationPath (cleanupPath dir)) +:+ "/"].
Proof. split; reflexivity. Qed.

(** ** Path normalisation *)

Lemma replaceAll_backslash p :
  contains "\" (Js.replaceAll "\" "/" p) = false.
Proof.
  unfold Js.replaceAll. induction p as [|c p IH]; [done|].
  cbn [Js.replaceAll_from Js.startsWith String.length Nat.sub].
  rewrite andb_true_r.
  destruct (Ascii.eqb_spec "\"%char c) as [<-|Hc].
  - by rewrite append_cons, append_empty_l.
  - cbn [contains]. rewrite IH, orb_false_r. apply Ascii.eqb_neq. congruence.
Qed.

(** X1. Whatever the input, the normalised path has no backslash left. *)
Lemma cleanupPath_no_backslash p : contains "\" (cleanupPath p) = false.
Proof. apply replaceAll_backslash. Qed.

(** C6, as the code has it. Two [/./] that share a slash are not both
    collapsed, for the second is never looked at; and a [.] segment between
    backslashes is not collapsed either, for the backslashes turn into
    slashes only after the [/./] have been replaced. *)
Theorem cleanupPath_leaves_dot_segments :
  cleanupPath "routes/././api.ts" = "routes/./api.ts"
  ∧ cleanupPath "routes\.\api.ts" = "routes/./api.ts"
  ∧ includes "/./" (cleanupPath "routes/././api.ts") = true.
Proof. repeat split; reflexivity. Qed.

(** ** One mapping, step by step *)

Section Run.

Variable relative : string → string → string.
Variable world : World.
Variable options : Options.

(** The callback unfolded along the answers of the host. *)
Lemma processMapping_run folder destination0 (h : Host) :
  processMapping relative world options folder destination0 h
  = let destination := cleanupPath destination0 in
    let listed := record (Readdir folder) h in
    match readdir world folder with
    | inl e => (RejectedWith e, listed)
    | inr dirents =>
        let text := manifestOf relative (quotes options) destination dirents in
        match writeFault world destination with
        | Some e => (RejectedWith e, listed)
        | None =>
            let written :=
              {| files := <[destination := text]> (files h);
                 trace := trace h ++ [Readdir folder; WriteFile destination text] |} in
            match autoformat options with
            | Some true =>
                let command := formatterCommand options destination in
                (Fulfilled (),
                 {| files := files written;
                    trace := trace written ++ Exec command ::
                      match execFault world command with
                      | Some err => [CallbackThrow err]
                      | None => []
                      end |})
            | _ => (Fulfilled (), written)
            end
        end
    end.
Proof.
  unfold processMapping, mbind, async_bind, fs_readdir, fs_writeFile, exec,
    formatterCallback, mret, async_ret, record, manifestOf, formatterCommand.
  cbn zeta.
  destruct (readdir world folder) as [e|dirents]; [done|]. cbn [files trace].
  destruct (writeFault world (cleanupPath destination0)) as [e|]; [done|].
  cbn [files trace]. rewrite <- !app_assoc. cbn [app].
  destruct (autoformat options) as [[]|]; [|done..].
  cbn [files trace].
  destruct (execFault world _); cbn [files trace]; by rewrite <- ?app_assoc.
Qed.

End Run.

(** ** The formatter *)

(** Membership of an event in an explicit list of events. *)
Ltac events_in H :=
  repeat (apply elem_of_cons in H as [H|H]; [try discriminate H|]);
  try (by apply elem_of_nil in H).

Ltac no_such_event :=
  let H := fresh "Hin" in intros H; events_in H.

(** C9. In the events of one mapping, a launch of the formatter command
    only happens when [autoformat] is on, and then the events are the
    listing, the completed write of the destination file, the launch, and
    after it the throw of the callback with the error of the command when
    the command failed, nothing when it succeeded; the callback's throw does
    not reject the mapping's promise. No throw happens without a failed
    launch. *)
Theorem formatter_after_write
    (relative : string → string → string) (world : World) (options : Options)
    (folder destination0 : string) (h : Host) :
  let destination := cleanupPath destination0 in
  let result := processMapping relative world options folder destination0 h in
  ∃ events, trace result.2 = trace h ++ events ∧
    (∀ command, Exec command ∈ events →
       autoformat options = Some true ∧
       result.1 = Fulfilled () ∧
       ∃ text,
         files result.2 !! destination = Some text ∧
         events = [Readdir folder; WriteFile destination text; Exec command]
                    ++ match execFault world command with
                       | Some err => [CallbackThrow err]
                       | None => []
                       end) ∧
    (∀ err, CallbackThrow err ∈ events →
       ∃ command, Exec command ∈ events ∧ execFault world command = Some err).
Proof.
  intros destination result. unfold result.
  rewrite processMapping_run. cbn zeta. fold destination.
  destruct (readdir world folder) as [e|dirents].
  { exists [Readdir folder]. split_and!; [done|..]; intros ?; no_such_event. }
  destruct (writeFault world destination) as [e|].
  { exists [Readdir folder]. split_and!; [done|..]; intros ?; no_such_event. }
  set (text := manifestOf _ _ _ _).
  destruct (autoformat options) as [[]|] eqn:Hauto.
  2,3: exists [Readdir folder; WriteFile destination text];
       (split_and!; [done|..]; intros ?; no_such_event).
  set (command := formatterCommand options destination).
  eexists. split; [cbn [snd trace]; by rewrite <- app_assoc|].
  cbn [fst snd files]. split.
  - intros command' Hin.
    assert (command' = command) as ->.
    { destruct (execFault world command); events_in Hin; congruence. }
    split_and!; [done..|]. exists text. split; [|done].
    apply lookup_insert_eq.
  - intros err Hin. exists command. split; [cbn [app]; rewrite !elem_of_cons; by auto|].
    destruct (execFault world command); events_in Hin; congruence.
Qed.

(** ** More on path normalisation *)

Lemma length_append (s t : string) :
  String.length (s +:+ t) = String.length s + String.length t.
Proof.
  induction s as [|c s IH]; [done|]. rewrite append_cons. simpl. by rewrite IH.
Qed.

Lemma startsWith_length (pat s : string) :
  Js.startsWith pat s = true → String.length pat ≤ String.length s.
Proof.
  revert s. induction pat as [|a pat IH]; intros [|b s]; simpl; try done; [lia|].
  intros [_ H]%andb_true_iff. apply IH in H. lia.
Qed.

(** A replacement no longer than the pattern cannot lengthen the text. *)
Lemma length_replaceAll_from (pat rep : string) (skip : nat) (s : string) :
  String.length rep ≤ String.length pat →
  String.length (Js.replaceAll_from pat rep skip s) ≤ String.length s - skip.
Proof.
  intros Hrep. revert skip.
  induction s as [|c s IH]; intros skip; [simpl; lia|].
  cbn [Js.replaceAll_from]. destruct skip as [|k].
  - destruct (Js.startsWith pat (String c s)) eqn:Hmatch.
    + apply startsWith_length in Hmatch. simpl in Hmatch.
      rewrite length_append.
      pose proof (IH (String.length pat - 1)). simpl. lia.
    + pose proof (IH 0). simpl. lia.
  - pose proof (IH k). simpl. lia.
Qed.

Lemma replaceAll_from_absent (pat rep s : string) :
  includes pat s = false → Js.replaceAll_from pat rep 0 s = s.
Proof.
  induction s as [|c s IH]; [done|].
  cbn [includes Js.replaceAll_from].
  intros [-> Hrest]%orb_false_elim. by rewrite IH.
Qed.

Lemma includes_backslash (s : string) : includes "\" s = contains "\" s.
Proof.
  induction s as [|c s IH]; [done|].
  cbn [includes contains Js.startsWith]. rewrite IH, andb_true_r.
  by rewrite Ascii.eqb_sym.
Qed.

(** X4. A path with no backslash and no [/./] in it is left as it is. *)
Theorem cleanupPath_clean (p : string) :
  contains "\" p = false → includes "/./" p = false → cleanupPath p = p.
Proof.
  intros Hback Hdot. unfold cleanupPath, Js.replaceAll.
  rewrite (replaceAll_from_absent "/./" "/" p Hdot).
  apply replaceAll_from_absent. by rewrite includes_backslash.
Qed.

Lemma cleanupPath_clean_witness : cleanupPath "./routes/api.ts" = "./routes/api.ts".
Proof. apply cleanupPath_clean; reflexivity. Defined.

(** X5. Normalising never makes a path longer. *)
Theorem cleanupPath_not_longer (p : string) :
  String.length (cleanupPath p) ≤ String.length p.
Proof.
  unfold cleanupPath, Js.replaceAll.
  pose proof (length_replaceAll_from "\" "/" 0 (Js.replaceAll_from "/./" "/" 0 p)) as H1.
  pose proof (length_replaceAll_from "/./" "/" 0 p) as H2.
  simpl in H1, H2. lia.
Qed.

(** X6. The directory of the destination [dir/file], [file] having no
    slash, is [dir]; a destination that is a bare file name has the empty
    directory. *)
Theorem destinationPathOf_directory (dir file : string) :
  contains "/" file = false →
  destinationPathOf (dir +:+ "/" +:+ file) = dir ∧ destinationPathOf file = "".
Proof.
  intros Hfile. rewrite !destinationPathOf_beforeLast. split.
  - by apply beforeLast_append.
  - by apply beforeLast_without.
Qed.

Lemma destinationPathOf_directory_witness :
  destinationPathOf "./routes/api.ts" = "./routes" ∧ destinationPathOf "api.ts" = "".
Proof. apply (destinationPathOf_directory "./routes" "api.ts"). reflexivity. Defined.

(** ** More on import specifiers *)

Lemma contains_beforeLast (c sep : ascii) (s : string) :
  contains c s = false → contains c (beforeLast sep s) = false.
Proof.
  induction s as [|a s IH]; [done|]. cbn [contains beforeLast].
  intros [Ha Hs]%orb_false_elim.
  destruct (contains sep s); [|done]. cbn [contains]. by rewrite Ha, IH.
Qed.

(** X7. Every import specifier starts with [./]. *)
Theorem specifiers_are_relative
    (relative : string → string → string) (destinationPath : string)
    (files : list ScannedFile) :
  Forall (λ specifier, Js.startsWith "./" specifier = true)
    (collectImports relative destinationPath files).
Proof.
  rewrite collectImports_omap. apply Forall_forall. intros specifier.
  rewrite list_elem_of_omap. intros (file & _ & Hspec).
  unfold specifierOf in Hspec. destruct (recognised (name file)); [|done].
  by injection Hspec as <-.
Qed.

(** X8. When no file name has a backslash, no import specifier has one:
    whatever separators [path.relative] answers with, the directory part is
    written with forward slashes. *)
Theorem specifiers_without_backslash
    (relative : string → string → string) (destinationPath : string)
    (files : list ScannedFile) :
  Forall (λ file, contains "\" (name file) = false) files →
  Forall (λ specifier, contains "\" specifier = false)
    (collectImports relative destinationPath files).
Proof.
  intros Hnames. rewrite collectImports_omap. apply Forall_forall.
  intros specifier. rewrite list_elem_of_omap. intros (file & Hin & Hspec).
  rewrite Forall_forall in Hnames. specialize (Hnames file Hin).
  unfold specifierOf in Hspec. destruct (recognised (name file)); [|done].
  injection Hspec as <-.
  unfold cleanupPath. rewrite !contains_append, replaceAll_backslash. simpl.
  by apply contains_beforeLast.
Qed.

Lemma specifiers_without_backslash_witness :
  Forall (λ specifier, contains "\" specifier = false)
    (collectImports (λ _ _, "..\api\v1") "./out"
       [ {| name := "get.ts"; path := "./api/v1"; directory := false |} ]).
Proof.
  apply specifiers_without_backslash. by repeat constructor.
Defined.

(** X9. A name that ends with a dot has an empty extension and is
    skipped. *)
Theorem trailing_dot_skipped
    (relative : string → string → string) (destinationPath : string)
    (entry : Dirent) (base : string) :
  dirent_name entry = base +:+ "." →
  collectImports relative destinationPath (scannedFiles [entry]) = [].
Proof.
  intros Hname. rewrite collectImports_entry, decide_False; [done|].
  unfold survives. rewrite Hname, afterLast_append by done.
  intros [_ Hin]. unfold recognisedExtensions in Hin.
  repeat (apply elem_of_cons in Hin as [Hin|Hin]; [discriminate Hin|]).
  by apply elem_of_nil in Hin.
Qed.

Lemma trailing_dot_skipped_witness :
  collectImports dropPrefix "./routes" (scannedFiles
    [ {| dirent_name := "notes.ts."; dirent_parentPath := "./routes";
         dirent_isDirectory := false |} ]) = [].
Proof.
  apply (trailing_dot_skipped dropPrefix "./routes" _ "notes.ts"). reflexivity.
Defined.

Lemma mapi_from_app {A B} (f : A → nat → B) i (xs ys : list A) :
  Js.mapi_from f i (xs ++ ys)
  = Js.mapi_from f i xs ++ Js.mapi_from f (i + length xs) ys.
Proof.
  revert i. induction xs as [|x xs IH]; intros i; simpl.
  - by rewrite Nat.add_0_r.
  - rewrite IH. by replace (S i + length xs) with (i + S (length xs)) by lia.
Qed.

(** X10. Entries listed later never renumber the earlier routes: the import
    lines of a listing open the import lines of every longer listing. *)
Theorem import_lines_stable
    (relative : string → string → string) (quotes : option Quote)
    (destinationPath : string) (pre post : list Dirent) :
  let lines dirents :=
    importLines quotes
      (collectImports relative destinationPath (scannedFiles dirents)) in
  lines pre `prefix_of` lines (pre ++ post).
Proof.
  intros lines. unfold lines, importLines, Js.mapi.
  rewrite scannedFiles_app, collectImports_app, mapi_from_app.
  by eexists.
Qed.

(** ** The trigger as a whole *)

Section Trigger.

Variable relative : string → string → string.
Variable world : World.
Variable options : Options.

(** One callback: the write it completes, if any, and its events. *)
Lemma runCallback_run (h : Host) (entry : string * string) :
  runCallback relative world options h entry
  = {| files := match writtenBy relative world options entry with
                | Some (file, data) => <[file := data]> (files h)
                | None => files h
                end;
       trace := trace h ++ callbackEvents relative world options entry |}.
Proof.
  unfold runCallback, writtenBy, callbackEvents.
  rewrite processMapping_run. unfold record. cbn zeta.
  destruct (readdir world entry.1) as [e|dirents].
  { cbn [files trace]. by rewrite <- app_assoc. }
  destruct (writeFault world (cleanupPath entry.2)) as [e|].
  { cbn [files trace]. by rewrite <- app_assoc. }
  destruct (autoformat options) as [[]|]; [|done..].
  cbn [files trace]. by rewrite <- app_assoc.
Qed.



End Trigger.


(** X16. With [autoformat] on and the listing and the write done, the
    command launched is [autoformatCommand] as it is when that is a
    non-empty string, and otherwise [prettier], the normalised destination
    between double quotes, [--write]. *)
Theorem formatter_command
    (relative : string → string → string) (world : World) (options : Options)
    (folder destination0 : string) (dirents : list Dirent) (h : Host) :
  autoformat options = Some true →
  readdir world folder = inr dirents →
  writeFault world (cleanupPath destination0) = None →
  let destination := cleanupPath destination0 in
  let command :=
    match autoformatCommand options with
    | Some (String c custom) => String c custom
    | _ => "prettier " +:+ doubleQuoteChar +:+ destination
             +:+ doubleQuoteChar +:+ " --write"
    end in
  trace (processMapping relative world options folder destination0 h).2
  = trace h
      ++ [Readdir folder;
          WriteFile destination (manifestOf relative (quotes options) destination dirents);
          Exec command]
      ++ match execFault world command with
         | Some err => [CallbackThrow err]
         | None => []
         end.
Proof.
  intros Hauto Hlist Hwrite destination command. subst destination.
  rewrite processMapping_run. cbn zeta.
  rewrite Hlist, Hwrite, Hauto. cbn [snd trace]. rewrite <- !app_assoc.
  assert (formatterCommand options (cleanupPath destination0) = command) as ->.
  { unfold formatterCommand, command. by destruct (autoformatCommand options) as [[|]|]. }
  done.
Qed.

Lemma formatter_command_witness :
  let world :=
    {| readdir := λ _, inr []; writeFault := λ _, None;
       execFault := λ _, Some "prettier: not found" |} in
  let options :=
    {| generate := [("./routes", "./routes/./api.ts")]; autoformat := Some true;
       autoformatCommand := Some ""; quotes := None |} in
  trace (processMapping dropPrefix world options "./routes" "./routes/./api.ts"
           {| files := ∅; trace := [] |}).2
  = [Readdir "./routes";
     WriteFile "./routes/api.ts" (newline +:+ "export default [];" +:+ newline);
     Exec ("prettier " +:+ doubleQuoteChar +:+ "./routes/api.ts"
             +:+ doubleQuoteChar +:+ " --write");
     CallbackThrow "prettier: not found"].
Proof.
  intros world options.
  apply (formatter_command dropPrefix world options "./routes" "./routes/./api.ts"
           [] {| files := ∅; trace := [] |}); reflexivity.
Defined.

(** ** What the manifest depends on *)

(** X17. A file whose whole name is a dot followed by a recognised
    extension is imported under the empty base name: its specifier ends
    with the slash. *)
Theorem dot_extension_name_imported
    (relative : string → string → string) (destinationPath : string)
    (entry : Dirent) (ext : string) :
  dirent_isDirectory entry = false →
  dirent_name entry = "." +:+ ext →
  ext ∈ recognisedExtensions →
  collectImports relative destinationPath (scannedFiles [entry])
  = ["./" +:+ cleanupPath (relative destinationPath
                             (cleanupPath (dirent_parentPath entry))) +:+ "/"].
Proof.
  intros Hdir Hname Hext.
  assert (contains "." ext = false) as Hfree.
  { unfold recognisedExtensions in Hext.
    repeat (apply elem_of_cons in Hext as [->|Hext]; [reflexivity|]).
    by apply elem_of_nil in Hext. }
  change ("." +:+ ext) with ("" +:+ String "."%char ext) in Hname.
  rewrite collectImports_entry, decide_True.
  - by rewrite Hname, (beforeLast_append "." "" ext Hfree), append_empty_r.
  - split; [done|]. by rewrite Hname, (afterLast_append "." "" ext Hfree).
Qed.

Lemma dot_extension_name_imported_witness :
  collectImports dropPrefix "./routes" (scannedFiles
    [ {| dirent_name := ".ts"; dirent_parentPath := "./routes/hi";
         dirent_isDirectory := false |} ])
  = ["./hi/"].
Proof.
  apply (dot_extension_name_imported dropPrefix "./routes"
           {| dirent_name := ".ts"; dirent_parentPath := "./routes/hi";
              dirent_isDirectory := false |} "ts").
  - reflexivity.
  - reflexivity.
  - unfold recognisedExtensions. rewrite !elem_of_cons. auto 10.
Defined.

(** X18. The manifest depends on the listing only through the entries that
    survive the filter: directories and files with another extension can be
    taken out of the listing without changing a byte. *)
Theorem manifest_of_survivors
    (relative : string → string → string) (quotes : option Quote)
    (destination : string) (dirents : list Dirent) :
  manifestOf relative quotes destination dirents
  = manifestOf relative quotes destination
      (filter (λ entry, dirent_isDirectory entry = false ∧
                        afterLast "." (dirent_name entry) ∈ recognisedExtensions)
         dirents).
Proof.
  unfold manifestOf. f_equal.
  induction dirents as [|entry dirents IH]; [done|].
  rewrite filter_cons.
  change (entry :: dirents) with ([entry] ++ dirents).
  rewrite scannedFiles_app, collectImports_app, collectImports_entry, IH.
  unfold survives. case_decide; [|done].
  change (entry :: filter ?P dirents) with ([entry] ++ filter P dirents).
  rewrite scannedFiles_app, collectImports_app, collectImports_entry.
  by rewrite decide_True.
Qed.

(** ** Runs of the event loop *)

Section LoopFacts.

Variable relative : string → string → string.
Variable world : World.
Variable options : Options.

Local Abbreviation resume := (EventLoop.resume relative world options).
Local Abbreviation settle := (EventLoop.settle relative world options).
Local Abbreviation run := (EventLoop.run relative world options).
Local Abbreviation futureWrites := (EventLoop.futureWrites relative world options).
Local Abbreviation quiescent := EventLoop.quiescent.

(** A stretch of a callback completes the write it had yet to complete, or
    leaves it to be completed. *)
Lemma resume_writes (task : EventLoop.Task) :
  completedWrites (resume task).2 ++ futureWrites (resume task).1
  = futureWrites task.
Proof.
  destruct task as [folder destination destinationPath|destination data|command|];
    cbn [EventLoop.resume EventLoop.futureWrites].
  - destruct (readdir world folder) as [e|dirents]; [done|].
    cbn [fst snd completedWrites omap list_omap app EventLoop.futureWrites].
    by destruct (writeFault world destination).
  - destruct (writeFault world destination); [done|].
    by destruct (autoformat options) as [[]|].
  - by destruct (formatterCallback (execFault world command)).
  - done.
Qed.

Lemma resume_no_listing (task : EventLoop.Task) :
  listedFolders (resume task).2 = [].
Proof.
  destruct task as [folder destination destinationPath|destination data|command|];
    cbn [EventLoop.resume].
  - by destruct (readdir world folder).
  - destruct (writeFault world destination); [done|].
    by destruct (autoformat options) as [[]|].
  - by destruct (formatterCallback (execFault world command)).
  - done.
Qed.

Lemma concat_fmap_middle {A B} (f : A → list B) (xs : list A) (i : nat) (x : A) :
  xs !! i = Some x →
  concat (f <$> xs)
  = concat (f <$> take i xs) ++ f x ++ concat (f <$> drop (S i) xs).
Proof.
  intros Hx. rewrite <- (take_drop_middle xs i x Hx) at 1.
  by rewrite fmap_app, fmap_cons, concat_app.
Qed.

(** Completed and yet to complete, the writes stay the same, up to order. *)
Lemma settle_writes (l : EventLoop.Loop) (i : nat) :
  completedWrites (EventLoop.log (settle l i))
    ++ concat (futureWrites <$> EventLoop.pending (settle l i))
  ≡ₚ completedWrites (EventLoop.log l)
       ++ concat (futureWrites <$> EventLoop.pending l).
Proof.
  unfold EventLoop.settle.
  destruct (EventLoop.pending l !! i) as [task|] eqn:Htask; [|done].
  cbn [EventLoop.pending EventLoop.log].
  assert (i < length (EventLoop.pending l)) as Hi by by eapply lookup_lt_Some.
  unfold completedWrites at 1. rewrite omap_app. fold (completedWrites (EventLoop.log l)).
  fold (completedWrites (resume task).2).
  rewrite (concat_fmap_middle futureWrites (EventLoop.pending l) i task Htask).
  rewrite (concat_fmap_middle futureWrites (<[i:=(resume task).1]> (EventLoop.pending l))
             i (resume task).1) by by apply list_lookup_insert_eq.
  rewrite take_insert_ge, drop_insert_lt by lia.
  rewrite <- (resume_writes task).
  set (before := concat (futureWrites <$> take i (EventLoop.pending l))).
  set (after := concat (futureWrites <$> drop (S i) (EventLoop.pending l))).
  rewrite <- !app_assoc. f_equiv. apply Permutation_app_swap_app.
Qed.

Lemma foldl_settle_writes (schedule : list nat) (l : EventLoop.Loop) :
  completedWrites (EventLoop.log (foldl settle l schedule))
    ++ concat (futureWrites <$> EventLoop.pending (foldl settle l schedule))
  ≡ₚ completedWrites (EventLoop.log l)
       ++ concat (futureWrites <$> EventLoop.pending l).
Proof.
  revert l. induction schedule as [|i schedule IH]; intros l; [done|].
  cbn [foldl]. by rewrite IH, settle_writes.
Qed.

(** Taken through its three awaits, a callback has the events of its
    straight-line reading. *)
Lemma callback_stretches (entry : string * string) :
  let first := resume (EventLoop.start entry) in
  let second := resume first.1 in
  let third := resume second.1 in
  Readdir entry.1 :: first.2 ++ second.2 ++ third.2
  = callbackEvents relative world options entry
  ∧ third.1 = EventLoop.Finished.
Proof.
  unfold callbackEvents, EventLoop.start, manifestOf, formatterCommand.
  cbn [EventLoop.resume].
  destruct (readdir world entry.1) as [e|dirents]; [done|].
  cbn [fst snd EventLoop.resume app].
  destruct (writeFault world (cleanupPath entry.2)) as [e|]; [done|].
  destruct (autoformat options) as [[]|]; [|done..].
  cbn [fst snd EventLoop.resume app].
  destruct (autoformatCommand options) as [[|c command]|];
    cbn [Js.or_else]; by destruct (execFault world _).
Qed.

Lemma futureWrites_start (entry : string * string) :
  futureWrites (EventLoop.start entry)
  = option_list (writtenBy relative world options entry).
Proof.
  unfold EventLoop.start, writtenBy, manifestOf. cbn [EventLoop.futureWrites].
  destruct (readdir world entry.1); [done|].
  by destruct (writeFault world (cleanupPath entry.2)).
Qed.

Lemma concat_option_list {A B} (f : A → option B) (xs : list A) :
  concat ((λ x, option_list (f x)) <$> xs) = omap f xs.
Proof.
  induction xs as [|x xs IH]; [done|]. cbn [fmap list_fmap concat omap list_omap].
  rewrite IH. by destruct (f x).
Qed.

Lemma quiescent_no_future (l : EventLoop.Loop) :
  quiescent l → concat (futureWrites <$> EventLoop.pending l) = [].
Proof.
  unfold EventLoop.quiescent.
  induction 1 as [|task tasks -> _ IH]; [done|].
  cbn [fmap list_fmap concat]. by rewrite IH.
Qed.

(** The writes of a run, completed and yet to complete, are those of the
    mappings whose listing and write succeed. *)
Lemma run_writes (schedule : list nat) :
  completedWrites (EventLoop.log (run schedule))
    ++ concat (futureWrites <$> EventLoop.pending (run schedule))
  ≡ₚ omap (writtenBy relative world options) (generate options).
Proof.
  unfold EventLoop.run. rewrite foldl_settle_writes.
  cbn [EventLoop.handleHotUpdate EventLoop.pending EventLoop.log].
  assert (completedWrites ((λ entry : string * string, Readdir entry.1)
                             <$> generate options) = []) as ->.
  { induction (generate options) as [|entry entries IH]; [done|]. apply IH. }
  cbn [app]. rewrite <- list_fmap_compose.
  rewrite <- (concat_option_list (writtenBy relative world options)).
  erewrite (list_fmap_ext (futureWrites ∘ EventLoop.start)); [done|].
  intros _ entry _. apply futureWrites_start.
Qed.

Lemma run_completedWrites (schedule : list nat) :
  quiescent (run schedule) →
  completedWrites (EventLoop.log (run schedule))
  ≡ₚ omap (writtenBy relative world options) (generate options).
Proof.
  intros Hdone. rewrite <- (run_writes schedule).
  by rewrite (quiescent_no_future _ Hdone), app_nil_r.
Qed.

(** Settling never lists a folder and never takes an event back. *)
Lemma foldl_settle_log (schedule : list nat) (l : EventLoop.Loop) :
  ∃ later, EventLoop.log (foldl settle l schedule) = EventLoop.log l ++ later
           ∧ listedFolders later = [].
Proof.
  revert l. induction schedule as [|i schedule IH]; intros l.
  - exists []. by rewrite app_nil_r.
  - cbn [foldl]. destruct (IH (settle l i)) as (later & -> & Hlater).
    unfold EventLoop.settle.
    destruct (EventLoop.pending l !! i) as [task|]; [|by eexists].
    cbn [EventLoop.log]. exists ((resume task).2 ++ later).
    split; [by rewrite app_assoc|].
    unfold listedFolders in *. by rewrite omap_app, Hlater, resume_no_listing.
Qed.

End LoopFacts.

Section RunFacts.

Variable relative : string → string → string.
Variable world : World.
Variable options : Options.

Lemma writtenBy_file entry file data :
  writtenBy relative world options entry = Some (file, data) →
  file = cleanupPath entry.2.
Proof.
  unfold writtenBy. destruct (readdir world entry.1); [done|].
  destruct (writeFault world _); [done|]. by intros [= <- _].
Qed.

Lemma written_files_sublist (entries : list (string * string)) :
  (omap (writtenBy relative world options) entries).*1
  `sublist_of` (λ entry, cleanupPath entry.2) <$> entries.
Proof.
  induction entries as [|entry entries IH]; [done|].
  cbn [omap list_omap fmap list_fmap].
  destruct (writtenBy relative world options entry) as [[file data]|] eqn:Hw.
  - apply writtenBy_file in Hw as ->. by constructor.
  - by constructor.
Qed.

End RunFacts.

(** Of writes to pairwise different files, at most one is to a given file. *)
Lemma one_write_per_file (fileAt : string → string) (file : string)
    (writes : list (string * string)) :
  NoDup (fileAt <$> writes.*1) →
  length (omap (λ write : string * string,
                  if decide (fileAt write.1 = fileAt file) then Some write.2 else None)
            writes) ≤ 1.
Proof.
  induction writes as [|[path data] writes IH]; [simpl; lia|].
  rewrite !fmap_cons, NoDup_cons. intros [Hnew Hrest]. cbn [omap list_omap fst snd].
  case_decide as Hfile; [|by apply IH].
  assert (omap (λ write : string * string,
                  if decide (fileAt write.1 = fileAt file) then Some write.2 else None)
            writes = []) as ->; [|simpl; lia].
  clear IH Hrest. induction writes as [|[path' data'] writes IH]; [done|].
  rewrite !fmap_cons, not_elem_of_cons in Hnew. destruct Hnew as [Hne Hnew].
  cbn [fst] in Hne, Hfile.
  cbn [omap list_omap fst snd]. rewrite decide_False by congruence. by apply IH.
Qed.

Lemma Permutation_short {A} (l1 l2 l : list A) :
  l1 ≡ₚ l → l2 ≡ₚ l → length l ≤ 1 → l1 = l2.
Proof.
  destruct l as [|x [|y l]]; simpl; intros H1 H2 Hlen; [| |lia].
  - apply Permutation_nil_r in H1, H2. congruence.
  - apply Permutation_singleton_r in H1, H2. congruence.
Qed.

(** ** Regeneration *)

(** C7, as the code has it. Two mappings with one destination file: which
    manifest the file is left with depends on which of the two writes
    completes last, so two regenerations over the same listings can leave
    different bytes. *)
Lemma regeneration_depends_on_completion_order :
  let relative := λ _ to : string, "../" +:+ afterLast "/" to in
  let world :=
    {| readdir := λ folder,
         inr [ {| dirent_name := "get.ts"; dirent_parentPath := folder;
                  dirent_isDirectory := false |} ];
       writeFault := λ _, None;
       execFault := λ _, None |} in
  let options :=
    {| generate := [("./a", "./out/api.ts"); ("./b", "./out/api.ts")];
       autoformat := None; autoformatCommand := None; quotes := None |} in
  let run := EventLoop.run relative world options in
  EventLoop.quiescent (run [0; 0; 1; 1])
  ∧ EventLoop.quiescent (run [1; 1; 0; 0])
  ∧ leftIn (λ path, path) "./out/api.ts" (EventLoop.log (run [0; 0; 1; 1]))
    = Some ("import route1 from './../b/get';" +:+ newline +:+ newline
              +:+ "export default [route1];" +:+ newline)
  ∧ leftIn (λ path, path) "./out/api.ts" (EventLoop.log (run [1; 1; 0; 0]))
    = Some ("import route1 from './../a/get';" +:+ newline +:+ newline
              +:+ "export default [route1];" +:+ newline).
Proof.
  intros relative world options run.
  split_and!; [vm_compute; by repeat constructor..|reflexivity|reflexivity].
Qed.

(** C7, amended. When no two mappings name the same destination file, two
    regenerations over the same answers of the host leave the same bytes in
    every file, in whatever order the listings and the writes complete: for
    every path, the last write completed to the file it names carries the
    same bytes in both runs. *)
Theorem regeneration_same_contents
    (relative : string → string → string) (world : World) (options : Options)
    (fileAt : string → string) (first second : list nat) (file : string) :
  NoDup (fileAt <$> destinations options) →
  EventLoop.quiescent (EventLoop.run relative world options first) →
  EventLoop.quiescent (EventLoop.run relative world options second) →
  leftIn fileAt file (EventLoop.log (EventLoop.run relative world options first))
  = leftIn fileAt file (EventLoop.log (EventLoop.run relative world options second)).
Proof.
  intros Hdistinct Hfirst Hsecond. unfold leftIn. f_equal.
  eapply Permutation_short.
  - by rewrite (run_completedWrites relative world options first Hfirst).
  - by rewrite (run_completedWrites relative world options second Hsecond).
  - apply one_write_per_file.
    eapply sublist_NoDup; [exact Hdistinct|].
    apply fmap_sublist, written_files_sublist.
Qed.

Lemma regeneration_same_contents_witness :
  let relative := λ _ to : string, "../" +:+ afterLast "/" to in
  let world :=
    {| readdir := λ folder,
         inr [ {| dirent_name := "get.ts"; dirent_parentPath := folder;
                  dirent_isDirectory := false |} ];
       writeFault := λ _, None;
       execFault := λ _, None |} in
  let options :=
    {| generate := [("./a", "./out/a.ts"); ("./b", "./out/b.ts")];
       autoformat := None; autoformatCommand := None; quotes := None |} in
  let run := EventLoop.run relative world options in
  leftIn (λ path, path) "./out/a.ts" (EventLoop.log (run [0; 0; 1; 1]))
  = leftIn (λ path, path) "./out/a.ts" (EventLoop.log (run [1; 0; 1; 0])).
Proof.
  intros relative world options run.
  apply (regeneration_same_contents relative world options (λ path, path)
           [0; 0; 1; 1] [1; 0; 1; 0] "./out/a.ts").
  - apply (@bool_decide_unpack _ (NoDup_dec _)). vm_compute. exact I.
  - vm_compute. by repeat constructor.
  - vm_compute. by repeat constructor.
Defined.

(** ** What every run of a hot update does *)

(** X3. Whatever the order in which the listings and the writes complete,
    two runs of a hot update that have come to rest have completed the same
    writes, with the same bytes: only their order can differ. *)
Theorem runs_complete_the_same_writes
    (relative : string → string → string) (world : World) (options : Options)
    (first second : list nat) :
  EventLoop.quiescent (EventLoop.run relative world options first) →
  EventLoop.quiescent (EventLoop.run relative world options second) →
  completedWrites (EventLoop.log (EventLoop.run relative world options first))
  ≡ₚ completedWrites (EventLoop.log (EventLoop.run relative world options second)).
Proof.
  intros Hfirst Hsecond.
  by rewrite (run_completedWrites relative world options first Hfirst),
             (run_completedWrites relative world options second Hsecond).
Qed.

Lemma runs_complete_the_same_writes_witness :
  let relative := λ _ to : string, "../" +:+ afterLast "/" to in
  let world :=
    {| readdir := λ folder,
         inr [ {| dirent_name := "get.ts"; dirent_parentPath := folder;
                  dirent_isDirectory := false |} ];
       writeFault := λ _, None;
       execFault := λ _, None |} in
  let options :=
    {| generate := [("./a", "./out/api.ts"); ("./b", "./out/api.ts")];
       autoformat := Some true; autoformatCommand := None; quotes := None |} in
  let run := EventLoop.run relative world options in
  completedWrites (EventLoop.log (run [0; 0; 0; 1; 1; 1]))
  ≡ₚ completedWrites (EventLoop.log (run [1; 0; 1; 0; 1; 0])).
Proof.
  intros relative world options run.
  apply (runs_complete_the_same_writes relative world options
           [0; 0; 0; 1; 1; 1] [1; 0; 1; 0; 1; 0]).
  - vm_compute. by repeat constructor.
  - vm_compute. by repeat constructor.
Defined.

(** X12. In every run of a hot update, however far it has got, every write
    the plugin has completed is to the normalised text of a configured
    destination. *)
Theorem writes_only_to_destinations
    (relative : string → string → string) (world : World) (options : Options)
    (schedule : list nat) :
  Forall (λ write : string * string, write.1 ∈ destinations options)
    (completedWrites (EventLoop.log (EventLoop.run relative world options schedule))).
Proof.
  pose proof (run_writes relative world options schedule) as Hwrites.
  assert (Forall (λ write : string * string, write.1 ∈ destinations options)
            (omap (writtenBy relative world options) (generate options))) as Hall.
  { apply Forall_forall. intros [file data] Hin.
    apply (list_elem_of_fmap_2 fst) in Hin.
    exact (elem_of_sublist _ _ _ Hin
             (written_files_sublist relative world options (generate options))). }
  rewrite <- Hwrites in Hall. by apply Forall_app in Hall as [? _].
Qed.

(** X13. In every run that has come to rest, a mapping whose listing and
    write succeed has had the manifest of its listing written to its
    normalised destination, whatever became of the other mappings. *)
Theorem successful_mapping_writes_manifest
    (relative : string → string → string) (world : World) (options : Options)
    (schedule : list nat) (folder destination0 : string) (dirents : list Dirent) :
  (folder, destination0) ∈ generate options →
  readdir world folder = inr dirents →
  writeFault world (cleanupPath destination0) = None →
  EventLoop.quiescent (EventLoop.run relative world options schedule) →
  (cleanupPath destination0,
   manifestOf relative (quotes options) (cleanupPath destination0) dirents)
  ∈ completedWrites (EventLoop.log (EventLoop.run relative world options schedule)).
Proof.
  intros Hentry Hlist Hwrite Hrest.
  rewrite (run_completedWrites relative world options schedule Hrest).
  apply list_elem_of_omap. exists (folder, destination0). split; [done|].
  unfold writtenBy. cbn [fst snd]. by rewrite Hlist, Hwrite.
Qed.

Lemma successful_mapping_writes_manifest_witness :
  let relative := λ _ to : string, "../" +:+ afterLast "/" to in
  let world :=
    {| readdir := λ folder,
         if bool_decide (folder = "./admin") then inl "EACCES"
         else inr [ {| dirent_name := "get.ts"; dirent_parentPath := "./routes/hi";
                       dirent_isDirectory := false |} ];
       writeFault := λ _, None;
       execFault := λ _, None |} in
  let options :=
    {| generate := [("./admin", "./admin/api.ts"); ("./routes", "./routes/api.ts")];
       autoformat := None; autoformatCommand := None; quotes := None |} in
  ("./routes/api.ts",
   "import route1 from './../hi/get';" +:+ newline +:+ newline
     +:+ "export default [route1];" +:+ newline)
  ∈ completedWrites (EventLoop.log (EventLoop.run relative world options [1; 0; 1])).
Proof.
  intros relative world options.
  apply (successful_mapping_writes_manifest relative world options [1; 0; 1]
           "./routes" "./routes/api.ts"
           [ {| dirent_name := "get.ts"; dirent_parentPath := "./routes/hi";
                dirent_isDirectory := false |} ]).
  - apply elem_of_cons. right. apply elem_of_cons. by left.
  - reflexivity.
  - reflexivity.
  - vm_compute. by repeat constructor.
Defined.

(** X15. The writes completed by a run that has come to rest are, up to the
    order in which they completed, those of the mappings whose listing and
    write both succeed: for each, the manifest of its listing, to its
    normalised destination. *)
Theorem completed_writes_of_a_run
    (relative : string → string → string) (world : World) (options : Options)
    (schedule : list nat) :
  EventLoop.quiescent (EventLoop.run relative world options schedule) →
  completedWrites (EventLoop.log (EventLoop.run relative world options schedule))
  ≡ₚ omap (λ entry : string * string,
             match readdir world entry.1, writeFault world (cleanupPath entry.2) with
             | inr dirents, None =>
                 Some (cleanupPath entry.2,
                       manifestOf relative (quotes options) (cleanupPath entry.2) dirents)
             | _, _ => None
             end) (generate options).
Proof.
  intros Hrest.
  rewrite (run_completedWrites relative world options schedule Hrest).
  assert (∀ entry, writtenBy relative world options entry
            = match readdir world entry.1, writeFault world (cleanupPath entry.2) with
              | inr dirents, None =>
                  Some (cleanupPath entry.2,
                        manifestOf relative (quotes options) (cleanupPath entry.2) dirents)
              | _, _ => None
              end) as Hsame.
  { intros entry. unfold writtenBy. destruct (readdir world entry.1); [done|].
    by destruct (writeFault world _). }
  induction (generate options) as [|entry entries IH]; [done|].
  cbn [omap list_omap]. rewrite Hsame.
  destruct (readdir world entry.1); [done|].
  destruct (writeFault world (cleanupPath entry.2)); [done|]. by f_equiv.
Qed.

Lemma completed_writes_of_a_run_witness :
  let relative := λ _ to : string, "../" +:+ afterLast "/" to in
  let world :=
    {| readdir := λ folder,
         if bool_decide (folder = "./admin") then inl "EACCES" else inr [];
       writeFault := λ _, None;
       execFault := λ _, None |} in
  let options :=
    {| generate := [("./admin", "./admin/api.ts"); ("./routes", "./routes/api.ts")];
       autoformat := None; autoformatCommand := None; quotes := None |} in
  completedWrites (EventLoop.log (EventLoop.run relative world options [1; 0; 1]))
  ≡ₚ [("./routes/api.ts", newline +:+ "export default [];" +:+ newline)].
Proof.
  intros relative world options.
  apply (completed_writes_of_a_run relative world options [1; 0; 1]).
  vm_compute. by repeat constructor.
Defined.

(** X19. In every run of a hot update the listings of all configured
    folders are asked for first, in key order, before any callback goes on;
    nothing is listed after that. *)
Theorem every_listing_is_asked_first
    (relative : string → string → string) (world : World) (options : Options)
    (schedule : list nat) :
  ∃ later,
    EventLoop.log (EventLoop.run relative world options schedule)
    = ((λ entry : string * string, Readdir entry.1) <$> generate options) ++ later
    ∧ listedFolders later = [].
Proof.
  apply (foldl_settle_log relative world options schedule
           (EventLoop.handleHotUpdate options)).
Qed.

(** X11. When the listing of a folder fails, or the write of the
    destination file fails, with an error [e], the callback of the mapping
    launches no formatter, whatever [autoformat] says, and its rejection
    with [e] is left unhandled; when it is the listing that failed, no
    write is attempted and every file is as it was. *)
Theorem failed_mapping_stops
    (relative : string → string → string) (world : World) (options : Options)
    (folder destination0 : string) (e : Error) (h : Host) :
  readdir world folder = inl e
  ∨ (∃ dirents, readdir world folder = inr dirents)
    ∧ writeFault world (cleanupPath destination0) = Some e →
  trace (runCallback relative world options h (folder, destination0))
  = trace h ++ [Readdir folder; UnhandledRejection e]
  ∧ (readdir world folder = inl e →
     files (runCallback relative world options h (folder, destination0)) = files h).
Proof.
  intros Hfail. rewrite runCallback_run. unfold writtenBy, callbackEvents.
  cbn [fst snd files trace].
  destruct Hfail as [-> | [[dirents ->] ->]]; [done|]. split; [done|]. done.
Qed.

Lemma failed_mapping_stops_witness :
  let world :=
    {| readdir := λ _, inl "ENOENT"; writeFault := λ _, None;
       execFault := λ _, None |} in
  let options :=
    {| generate := [("./routes", "./routes/api.ts")]; autoformat := Some true;
       autoformatCommand := None; quotes := None |} in
  let h := {| files := {[ "./routes/api.ts" := "old" ]}; trace := [] |} in
  trace (runCallback dropPrefix world options h ("./routes", "./routes/api.ts"))
  = [Readdir "./routes"; UnhandledRejection "ENOENT"]
  ∧ files (runCallback dropPrefix world options h ("./routes", "./routes/api.ts"))
    = {[ "./routes/api.ts" := "old" ]}.
Proof.
  intros world options h.
  destruct (failed_mapping_stops dropPrefix world options
              "./routes" "./routes/api.ts" "ENOENT" h) as [Htrace Hfiles].
  - left. reflexivity.
  - split; [exact Htrace|]. by apply Hfiles.
Defined.
